(** * Aura document query system: a shallow embedding in Rocq

    Frontend (Next.js, TypeScript): [formSchema], [DocumentForm] and
    [AnswerDisplay] are translated from the sources.  The backend pipeline
    (chunker, retriever, answer synthesizer, document cache, orchestrator)
    is not part of the sources; its parts are modelled from the
    specification and marked as such.

    JavaScript strings are Rocq [string]s (one [ascii] per UTF-16 code
    unit, so [String.length] is JavaScript's [.length]); JavaScript numbers
    that are scores, confidences or times are rationals [Q]. *)

From Stdlib Require Import QArith Lqa.
From stdpp Require Import base list gmap strings sorting.

Open Scope nat_scope.

(* ================================================================== *)
(** ** src/frontend/types/api.ts *)

Record QuestionRequest := mkQuestionRequest { question : string }.

Record HackRXRequest := mkHackRXRequest {
  document_url : string;
  questions : list QuestionRequest
}.

Record AnswerResponse := mkAnswerResponse {
  ar_question : string;
  ar_answer : string;
  ar_sources : list string;
  ar_confidence : option Q        (* confidence?: number *)
}.

Record HackRXResponse := mkHackRXResponse {
  success : bool;
  resp_document_url : string;
  answers : list AnswerResponse;
  processing_time_ms : option Q   (* processing_time_ms?: number *)
}.

Record ErrorResponse := mkErrorResponse {
  err_success : bool;
  err_error : string;
  err_details : option string
}.

(* ================================================================== *)
(** ** src/frontend/components/DocumentForm.tsx *)

Module DocumentForm.

Record FormData := mkFormData {
  documentUrl : string;
  fquestions : list QuestionRequest
}.

Section Schema.

(** [z.string().url()]: zod accepts a string when [new URL(s)] parses it;
    the WHATWG URL parser is an external collaborator. *)
Variable is_url : string -> bool.

(** [z.string().min(1).max(1000)] on one question. *)
Definition question_ok (q : QuestionRequest) : bool :=
  (1 <=? String.length (question q)) && (String.length (question q) <=? 1000).

(** [formSchema]: the whole zod object schema. *)
Definition formSchema (fd : FormData) : bool :=
  is_url (documentUrl fd)
  && forallb question_ok (fquestions fd)
  && (1 <=? length (fquestions fd))
  && (length (fquestions fd) <=? 10).

(** What happens on pressing "Process Document": [handleSubmit] runs the
    zod resolver and calls [onSubmit] only on valid data; [onSubmit] is
    [handleFormSubmit] of page.tsx, which builds the [HackRXRequest]; the
    mutation then refuses to send without a bearer token, and otherwise
    posts the request to the backend. *)
Inductive SubmitOutcome :=
  | ValidationErrors
  | BearerTokenRequired (e : ErrorResponse)
  | Sent (r : HackRXRequest).

Definition handleFormSubmit (fd : FormData) : HackRXRequest :=
  mkHackRXRequest (documentUrl fd) (fquestions fd).

Definition mutationFn (bearerToken : string) (r : HackRXRequest) : SubmitOutcome :=
  if String.eqb bearerToken EmptyString
  then BearerTokenRequired
         (mkErrorResponse false "Bearer token required"
            (Some "Please enter your API bearer token in settings"))
  else Sent r.

Definition submit (bearerToken : string) (fd : FormData) : SubmitOutcome :=
  if formSchema fd then mutationFn bearerToken (handleFormSubmit fd)
  else ValidationErrors.

(** The bounds of an inbound request, as a proposition. *)
Definition request_bounds (r : HackRXRequest) : Prop :=
  is_url (document_url r) = true
  /\ 1 <= length (questions r) <= 10
  /\ Forall (fun q => 1 <= String.length (question q) <= 1000) (questions r).

End Schema.

(** The question fields of [useFieldArray]: [append] adds one at the end,
    [remove(index)] splices one out ([splice] beyond the end removes
    nothing; the fields are objects, so the [compact] check of
    react-hook-form keeps the array). *)
Record Field := mkField { fquestion : string }.

Inductive FormAction :=
  | AddQuestion
  | RemoveQuestion (index : nat).

Definition append (fields : list Field) (f : Field) : list Field := fields ++ [f].

Definition remove (fields : list Field) (index : nat) : list Field :=
  if index <? length fields then take index fields ++ drop (S index) fields
  else fields.

Definition addQuestion (fields : list Field) : list Field :=
  if length fields <? 10 then append fields (mkField EmptyString) else fields.

Definition removeQuestion (fields : list Field) (index : nat) : list Field :=
  if 1 <? length fields then remove fields index else fields.

Definition step (fields : list Field) (a : FormAction) : list Field :=
  match a with
  | AddQuestion => addQuestion fields
  | RemoveQuestion i => removeQuestion fields i
  end.

(** [defaultValues.questions = [{ question: '' }]]. *)
Definition initial_fields : list Field := [mkField EmptyString].

Definition run (acts : list FormAction) : list Field :=
  fold_left step acts initial_fields.

End DocumentForm.

(* ================================================================== *)
(** ** src/frontend/components/AnswerDisplay.tsx *)

Module AnswerDisplay.

(** [x || 0] on a number: the falsy numbers are 0 (and NaN, which [Q] has
    no counterpart of); [undefined] is falsy. *)
Definition or_zero (c : option Q) : Q :=
  match c with
  | Some x => if Qeq_bool x 0 then 0 else x
  | None => 0
  end.

Definition confidence_sum (answers : list AnswerResponse) : Q :=
  fold_left (fun acc a => (acc + or_zero (ar_confidence a))%Q) answers 0%Q.

Record Summary := mkSummary {
  answered_count : nat;
  average_confidence : Q
}.

Record View := mkView {
  document_name : string;
  processed_in : option Q;
  cards : list AnswerResponse;
  summary : Summary
}.

Inductive Rendered :=
  | RNull                    (* return null *)
  | RThrows                  (* new URL(documentUrl) throws *)
  | RView (v : View).

Section Render.

(** [new URL(documentUrl).pathname.split('/').pop()]: [None] when the
    URL constructor throws. *)
Variable url_last_segment : string -> option string.

Definition AnswerDisplay (answers : option (list AnswerResponse))
    (documentUrl : string) (processingTime : option Q) : Rendered :=
  match answers with
  | None | Some [] => RNull
  | Some ans =>
      match url_last_segment documentUrl with
      | None => RThrows
      | Some name =>
          RView (mkView name
                   (match processingTime with
                    | Some t => if Qeq_bool t 0 then None else Some t
                    | None => None
                    end)
                   ans
                   (mkSummary (length ans)
                      (confidence_sum ans / inject_Z (Z.of_nat (length ans)))))
      end
  end.

End Render.

End AnswerDisplay.

(* ================================================================== *)
(** ** Backend pipeline *)

(** *** Chunker (4.1) *)

Module Chunker.

Section Chunker.

Context {A : Type}.

(** A chunk: its ordinal position, its text and the span it covers. *)
Record Chunk := mkChunk {
  index : nat;
  text : list A;
  char_start : nat;
  char_end : nat
}.

Inductive ChunkError := EmptyText | InvalidWindow.

(** Modelled from the spec: the sliding window of the chunker of the
    backend, which is not in the sources.  The window at [start] covers
    [window_size] characters (fewer at the end); the next one starts
    [window_size - overlap] further on, until a window reaches the end of
    the text.  [fuel] bounds the number of windows. *)
Fixpoint windows (fuel idx start : nat) (t : list A) (window_size overlap : nat)
    : list Chunk :=
  match fuel with
  | 0 => []
  | S fuel' =>
      let c := mkChunk idx (take window_size (drop start t)) start
                 (Nat.min (start + window_size) (length t)) in
      if start + window_size <? length t
      then c :: windows fuel' (S idx) (start + (window_size - overlap)) t
                  window_size overlap
      else [c]
  end.

(** Modelled from the spec: [chunk(text, window_size, overlap)] of the
    backend chunker, which is not in the sources.  Empty text and
    [overlap >= window_size] are errors; otherwise the windows from 0 on
    (a text no longer than the window gives a single chunk). *)
Definition chunk (t : list A) (window_size overlap : nat)
    : ChunkError + list Chunk :=
  match t with
  | [] => inl EmptyText
  | _ =>
      if window_size <=? overlap then inl InvalidWindow
      else inr (windows (S (length t)) 0 0 t window_size overlap)
  end.

(** Reassembly: the first chunk whole, then each later chunk without its
    leading [overlap] characters (those repeat the previous chunk). *)
Definition reassemble (overlap : nat) (cs : list Chunk) : list A :=
  match cs with
  | [] => []
  | c :: rest => text c ++ mjoin (map (fun c' => drop overlap (text c')) rest)
  end.

End Chunker.

Arguments Chunk : clear implicits.

End Chunker.

(** *** Vector index adapter (4.3) and retriever (4.5) *)

Module Retriever.

(** An upserted vector with its chunk text. *)
Record IndexEntry (V : Type) := mkIndexEntry {
  entry_id : string;
  vector : V;
  entry_text : string
}.
Arguments mkIndexEntry {V}.
Arguments entry_id {V}.
Arguments vector {V}.
Arguments entry_text {V}.

Record RetrievalEntry := mkRetrievalEntry {
  chunk_text : string;
  relevance_score : Q
}.

Fixpoint insert_desc (r : RetrievalEntry) (l : list RetrievalEntry)
    : list RetrievalEntry :=
  match l with
  | [] => [r]
  | x :: l' =>
      if Qle_bool (relevance_score x) (relevance_score r) then r :: x :: l'
      else x :: insert_desc r l'
  end.

Definition sort_desc (l : list RetrievalEntry) : list RetrievalEntry :=
  fold_right insert_desc [] l.

Section Retrieve.

Context {V : Type}.
Variable similarity : V -> V -> Q.
Variable embed : string -> V.

(** Modelled from the spec: [query(namespace, vector, k)] of the vector
    index adapter, which is not in the sources.  Every entry of the
    namespace is scored against the query vector with the similarity of
    the vector store; the entries are ordered by descending score and the
    first [k] kept; an unknown namespace gives an empty result. *)
Definition query (index : gmap string (list (IndexEntry V))) (namespace : string)
    (qv : V) (k : nat) : list RetrievalEntry :=
  match index !! namespace with
  | None => []
  | Some entries =>
      take k (sort_desc
                (map (fun e => mkRetrievalEntry (entry_text e)
                                 (similarity qv (vector e))) entries))
  end.

(** Modelled from the spec: [retrieve(document_key, question, k,
    min_relevance)] of the retriever, which is not in the sources: embed
    the question, query the document's namespace, drop the entries below
    [min_relevance]. *)
Definition retrieve (index : gmap string (list (IndexEntry V)))
    (document_key question : string) (k : nat) (min_relevance : Q)
    : list RetrievalEntry :=
  filter (fun r => Qle_bool min_relevance (relevance_score r) = true)
    (query index document_key (embed question) k).

End Retrieve.

End Retriever.

(** *** Answer synthesizer (4.6) *)

Module Synthesizer.

#[local] Set Warnings "-register-all".

(** The structured part of a language-model output, as JSON. *)
Inductive JsonVal :=
  | JNull
  | JBool (b : bool)
  | JNum (q : Q)
  | JStr (s : string)
  | JArr (l : list JsonVal)
  | JObj (fields : list (string * JsonVal)).

(** Output of the language-model service: its raw text and, when the text
    is JSON, the parsed value. *)
Record LMOutput := mkLMOutput {
  raw_text : string;
  structured : option JsonVal
}.

Inductive LMError := RateLimited | ContentFiltered | ServiceUnavailable.

Inductive Parsed :=
  | WellFormed (answer_text : string) (sources : list string) (confidence : Q)
  | Malformed (raw : string).

Fixpoint field (k : string) (fs : list (string * JsonVal)) : option JsonVal :=
  match fs with
  | [] => None
  | (k', v) :: fs' => if String.eqb k k' then Some v else field k fs'
  end.

Definition as_string (v : JsonVal) : option string :=
  match v with JStr s => Some s | _ => None end.

Definition as_strings (v : JsonVal) : option (list string) :=
  match v with JArr l => mapM as_string l | _ => None end.

Definition as_number (v : JsonVal) : option Q :=
  match v with JNum q => Some q | _ => None end.

(** Modelled from the spec: the parser of the synthesizer, which is not in
    the sources.  The output is well formed when it is a JSON object with
    a string [answer], an array of strings [sources] and a numeric
    [confidence]; anything else (a missing field, a non-numeric
    confidence, free text) is [Malformed] with the raw text. *)
Definition parse_output (o : LMOutput) : Parsed :=
  match structured o with
  | Some (JObj fs) =>
      match field "answer" fs ≫= as_string,
            field "sources" fs ≫= as_strings,
            field "confidence" fs ≫= as_number with
      | Some a, Some s, Some c => WellFormed a s c
      | _, _, _ => Malformed (raw_text o)
      end
  | _ => Malformed (raw_text o)
  end.

Definition build_prompt (q : string) (chunks : list string) : string :=
  "Answer strictly from the context below, cite the passages used and give a confidence in [0,1]."
  +:+ " Question: " +:+ q
  +:+ " Context: " +:+ foldr (fun c acc => c +:+ " | " +:+ acc) EmptyString chunks.

Definition insufficient_answer : string := "insufficient information in document".

Section Synthesize.

(** The language-model service. *)
Variable generate : string -> LMError + LMOutput.

(** Modelled from the spec: [synthesize(question, retrieved_chunks)].  The
    result carries the prompts sent to the language-model service, so that
    the calls it makes are visible.  An empty chunk list gives the fixed
    "insufficient information" answer without a call; a service failure is
    returned as an error (the orchestrator isolates it to the question);
    a malformed output falls back to the raw text and all the chunks. *)
Definition synthesize (q : string) (chunks : list string)
    : list string * (LMError + AnswerResponse) :=
  match chunks with
  | [] => ([], inr (mkAnswerResponse q insufficient_answer [] (Some 0%Q)))
  | _ =>
      let p := build_prompt q chunks in
      ([p],
       match generate p with
       | inl e => inl e
       | inr o =>
           match parse_output o with
           | WellFormed a s c => inr (mkAnswerResponse q a s (Some c))
           | Malformed raw => inr (mkAnswerResponse q raw chunks None)
           end
       end)
  end.

End Synthesize.

End Synthesizer.

(** *** Pipeline orchestrator (4.7) *)

Module Orchestrator.

Inductive IngestOutcome := IngestReady | IngestFailed (reason : string).

Inductive PipelineOutcome :=
  | Completed (r : HackRXResponse)
  | Failed (e : ErrorResponse).

Section Orchestrate.

(** Ensure-ingested for a document URL (cache, chunk, embed, upsert). *)
Variable ingest : string -> IngestOutcome.
(** Retrieve then synthesize for one question; per-question failures are
    already turned into an Answer Record with an error marker. *)
Variable answer_one : string -> AnswerResponse.

(** Modelled from the spec: the answering phase of the orchestrator,
    which is not in the sources.  The per-question tasks run concurrently;
    [order] is the order in which they complete.  Completion of task [i]
    stores its Answer Record in slot [i] of the result array. *)
Definition complete (qs : list string) (slots : list (option AnswerResponse))
    (i : nat) : list (option AnswerResponse) :=
  match qs !! i with
  | Some q => <[i := Some (answer_one q)]> slots
  | None => slots
  end.

Definition answering (qs : list string) (order : list nat)
    : list (option AnswerResponse) :=
  fold_left (complete qs) order (replicate (length qs) None).

(** The response is built once every slot is filled. *)
Definition aggregate (slots : list (option AnswerResponse))
    : option (list AnswerResponse) :=
  mapM id slots.

(** Modelled from the spec: the orchestrator of the backend, which is not
    in the sources.  [t_received] and [t_completed] are the wall-clock
    readings (in ms) when the request is received and when answering has
    completed. *)
Definition run_pipeline (t_received t_completed : Q) (req : HackRXRequest)
    (order : list nat) : PipelineOutcome :=
  let qs := map question (questions req) in
  match ingest (document_url req) with
  | IngestFailed reason =>
      Failed (mkErrorResponse false "Document ingestion failed" (Some reason))
  | IngestReady =>
      match aggregate (answering qs order) with
      | Some ans =>
          Completed (mkHackRXResponse true (document_url req) ans
                       (Some (t_completed - t_received)%Q))
      | None => Failed (mkErrorResponse false "Answering did not complete" None)
      end
  end.

End Orchestrate.

End Orchestrator.

(** *** Document cache (4.4) under concurrent requests *)

Module DocumentCache.

Inductive Status := Pending | Ready | FailedStatus.

Record IngestionRecord := mkIngestionRecord {
  document_key : string;
  status : Status;
  chunk_count : nat;
  created_at : nat;
  vector_namespace : string
}.

(** Program counter of one request thread in the ingesting phase. *)
Inductive Pc :=
  | AtStart                                (* about to call get_or_create *)
  | Ingesting                              (* owner: chunk/embed/upsert *)
  | Marking                                (* owner: about to mark_ready *)
  | Awaiting                               (* another caller owns the run *)
  | Done (observed : IngestionRecord).

Record State := mkState {
  cache : gmap string IngestionRecord;
  threads : list Pc;
  ingestion_runs : nat                    (* chunk/embed/upsert runs *)
}.

Definition mark_ready (r : IngestionRecord) (cc : nat) : IngestionRecord :=
  mkIngestionRecord (document_key r) Ready cc (created_at r) (vector_namespace r).

Section Cache.

Variable key : string.
(** Clock reading when the record is created. *)
Variable now : nat.
(** Number of chunks the ingestion run of the document produces. *)
Variable chunks_of_document : nat.

Definition pending_record : IngestionRecord :=
  mkIngestionRecord key Pending 0 now key.

(** Modelled from the spec: the Document Cache of the backend, which is
    not in the sources.  Each call below is one atomic step of one thread:
    [get_or_create] is an atomic check-and-set (an unseen or failed key
    makes the caller the owner of a new pending record; otherwise it
    waits), the owner runs the ingestion once and then calls [mark_ready];
    a waiter takes the record once it is ready and retries if it failed. *)
Definition thread_step (c : gmap string IngestionRecord) (runs : nat) (pc : Pc)
    : Pc * gmap string IngestionRecord * nat :=
  match pc with
  | AtStart =>
      match c !! key with
      | None => (Ingesting, <[key := pending_record]> c, runs)
      | Some r =>
          match status r with
          | FailedStatus => (Ingesting, <[key := pending_record]> c, runs)
          | _ => (Awaiting, c, runs)
          end
      end
  | Ingesting => (Marking, c, S runs)
  | Marking =>
      match c !! key with
      | Some r => let r' := mark_ready r chunks_of_document in
                  (Done r', <[key := r']> c, runs)
      | None => (Marking, c, runs)
      end
  | Awaiting =>
      match c !! key with
      | Some r =>
          match status r with
          | Ready => (Done r, c, runs)
          | FailedStatus => (AtStart, c, runs)
          | Pending => (Awaiting, c, runs)
          end
      | None => (AtStart, c, runs)
      end
  | Done r => (Done r, c, runs)
  end.

(** The scheduler runs one step of thread [tid]. *)
Definition step (st : State) (tid : nat) : State :=
  match threads st !! tid with
  | Some pc =>
      let '(pc', c', runs') := thread_step (cache st) (ingestion_runs st) pc in
      mkState c' (<[tid := pc']> (threads st)) runs'
  | None => st
  end.

Definition run (st : State) (sched : list nat) : State := fold_left step sched st.

Definition init (c0 : gmap string IngestionRecord) (n : nat) : State :=
  mkState c0 (replicate n AtStart) 0.

Definition is_done (pc : Pc) : bool := match pc with Done _ => true | _ => false end.

Definition all_done (st : State) : bool := forallb is_done (threads st).

End Cache.

End DocumentCache.

(* ================================================================== *)
(** ** DocumentForm.tsx: the buttons of the question list *)

Module DocumentFormButtons.
Import DocumentForm.

(** [disabled={fields.length >= 10 || isProcessing}] on "Add Question". *)
Definition add_disabled (fields : list Field) (isProcessing : bool) : bool :=
  (10 <=? length fields) || isProcessing.

(** [disabled={fields.length <= 1 || isProcessing}] on each trash button. *)
Definition remove_disabled (fields : list Field) (isProcessing : bool) : bool :=
  (length fields <=? 1) || isProcessing.

End DocumentFormButtons.

(* ================================================================== *)
(** ** AnswerDisplay.tsx: [AnswerCard] *)

Module AnswerCard.

(** The sources block: its header count, the Show/Hide button label and
    the sources listed below it. *)
Record SourcesView := mkSourcesView {
  sources_count : nat;
  button_label : string;
  listed : list string
}.

Record CardView := mkCardView {
  card_title : string;
  badge : option Q;                 (* the confidence badge *)
  card_answer : string;
  sources_block : option SourcesView
}.

(** [AnswerCard] rendered with its [showSources] state. *)
Definition AnswerCard (answer : AnswerResponse) (showSources : bool) : CardView :=
  mkCardView (ar_question answer)
    (ar_confidence answer)          (* answer.confidence !== undefined *)
    (ar_answer answer)
    (if 0 <? length (ar_sources answer)
     then Some (mkSourcesView (length (ar_sources answer))
                  (if showSources then "Hide" else "Show")
                  (if showSources then ar_sources answer else []))
     else None).

(** [useState(false)] and [onClick={() => setShowSources(!showSources)}]
    clicked [clicks] times. *)
Definition show_after (clicks : nat) : bool := Nat.iter clicks negb false.

End AnswerCard.

(* ================================================================== *)
(** ** page.tsx: [HomePage] *)

Module HomePage.
Import DocumentForm.

(** A mutation started by [processMutation.mutate]: [mutationFn] either
    threw at once (no bearer token) or is awaiting the backend. *)
Inductive Mutation :=
  | Rejected (e : ErrorResponse)
  | AwaitingServer.

Record Page := mkPage {
  results : option HackRXResponse;
  error : option ErrorResponse;
  bearerToken : string;
  showSettings : bool;
  inflight : list Mutation;
  (** requests posted by [apiClient.processDocument], with the token set
      by [apiClient.setBearerToken] just before *)
  sent : list (string * HackRXRequest)
}.

Inductive Event :=
  | TypeToken (s : string)               (* onChange of the token input *)
  | ToggleSettings                       (* "Settings" button *)
  | CloseSettings                        (* "Done" button *)
  | SubmitForm (fd : FormData)           (* "Process Document" *)
  | Settle (i : nat) (reply : ErrorResponse + HackRXResponse)
  | NewQuery.                            (* "New Query" button *)

Definition initial : Page := mkPage None None EmptyString false [] [].

Definition onSuccess (p : Page) (data : HackRXResponse) : Page :=
  mkPage (Some data) None (bearerToken p) (showSettings p) (inflight p) (sent p).

Definition onError (p : Page) (e : ErrorResponse) : Page :=
  mkPage None (Some e) (bearerToken p) (showSettings p) (inflight p) (sent p).

Section Events.

Variable is_url : string -> bool.

(** [handleSubmit(onSubmit)] validates with [formSchema]; [onSubmit] is
    [handleFormSubmit], which calls [processMutation.mutate(request)]. *)
Definition mutate (p : Page) (r : HackRXRequest) : Page :=
  match mutationFn (bearerToken p) r with
  | BearerTokenRequired e =>
      mkPage (results p) (error p) (bearerToken p) (showSettings p)
        (inflight p ++ [Rejected e]) (sent p)
  | _ =>
      mkPage (results p) (error p) (bearerToken p) (showSettings p)
        (inflight p ++ [AwaitingServer]) (sent p ++ [(bearerToken p, r)])
  end.

(** [Settle i reply]: mutation [i] settles; a thrown [mutationFn] calls
    [onError] with its error, a posted request calls [onSuccess] or
    [onError] with the reply of the backend.  [processMutation.reset()]
    does not cancel a mutation, so its callbacks still run. *)
Definition handle (p : Page) (ev : Event) : Page :=
  match ev with
  | TypeToken s =>
      mkPage (results p) (error p) s (showSettings p) (inflight p) (sent p)
  | ToggleSettings =>
      mkPage (results p) (error p) (bearerToken p) (negb (showSettings p))
        (inflight p) (sent p)
  | CloseSettings =>
      mkPage (results p) (error p) (bearerToken p) false (inflight p) (sent p)
  | SubmitForm fd =>
      if formSchema is_url fd then mutate p (handleFormSubmit fd) else p
  | Settle i reply =>
      match inflight p !! i with
      | None => p
      | Some m =>
          let p' := mkPage (results p) (error p) (bearerToken p) (showSettings p)
                      (delete i (inflight p)) (sent p) in
          match m, reply with
          | Rejected e, _ => onError p' e
          | AwaitingServer, inr data => onSuccess p' data
          | AwaitingServer, inl e => onError p' e
          end
      end
  | NewQuery =>
      mkPage None None (bearerToken p) (showSettings p) (inflight p) (sent p)
  end.

Definition run (evs : list Event) : Page := fold_left handle evs initial.

End Events.

End HomePage.

(* ================================================================== *)
(** ** run-dev.sh *)

Module RunDev.

(** The external commands of the script (its [echo] output is not
    modelled). *)
Inductive Cmd :=
  | ComposeUpPostgres                  (* docker-compose up -d postgres *)
  | PgIsReady                          (* docker-compose exec postgres pg_isready *)
  | Sleep1                             (* sleep 1 *)
  | ComposeUpAll                       (* docker-compose up -d *)
  | ComposeUpBackend                   (* docker-compose up -d backend *)
  | ComposeDown.                       (* docker-compose down *)

Inductive Outcome :=
  | ExitOk
  | ExitFail                           (* exit 1, or set -e on a failed command *)
  | StillWaiting.                      (* the until loop has not ended *)

(** What the machine offers: [.env], [docker], [docker-compose], whether
    each command succeeds, and the answer of the [k]-th [pg_isready]. *)
Record Env := mkEnv {
  env_file : bool;
  has_docker : bool;
  has_compose : bool;
  cmd_ok : Cmd -> bool;
  ready_probe : nat -> bool
}.

Inductive WaitResult := PgReady | SleepFailed | NotYetReady.

(** [until ... pg_isready ...; do sleep 1; done], run for at most [fuel]
    probes starting with probe [k]. *)
Fixpoint wait_pg (env : Env) (fuel k : nat) : list Cmd * WaitResult :=
  match fuel with
  | 0 => ([], NotYetReady)
  | S fuel' =>
      if ready_probe env k then ([PgIsReady], PgReady)
      else if cmd_ok env Sleep1 then
        let '(cs, r) := wait_pg env fuel' (S k) in (PgIsReady :: Sleep1 :: cs, r)
      else ([PgIsReady; Sleep1], SleepFailed)
  end.

(** The script under [set -e]; [choice] is the line read by [read -p]
    ([None] when the input is closed, which makes [read] fail). *)
Definition run_dev (env : Env) (fuel : nat) (choice : option string)
    : list Cmd * Outcome :=
  if negb (env_file env) then ([], ExitFail)
  else if negb (has_docker env) then ([], ExitFail)
  else if negb (has_compose env) then ([], ExitFail)
  else if negb (cmd_ok env ComposeUpPostgres) then ([ComposeUpPostgres], ExitFail)
  else
    let '(probes, w) := wait_pg env fuel 0 in
    let pre := ComposeUpPostgres :: probes in
    match w with
    | NotYetReady => (pre, StillWaiting)
    | SleepFailed => (pre, ExitFail)
    | PgReady =>
        let final (c : Cmd) := (pre ++ [c], if cmd_ok env c then ExitOk else ExitFail) in
        match choice with
        | None => (pre, ExitFail)
        | Some "1" => final ComposeUpAll
        | Some "2" => final ComposeUpBackend
        | Some "3" => (pre, ExitOk)
        | Some "4" => final ComposeDown
        | Some _ => (pre, ExitFail)
        end
    end.

End RunDev.

(* ================================================================== *)
(** * Properties *)

(** ** DocumentForm *)

Module DocumentFormFacts.
Import DocumentForm.

Lemma formSchema_bounds (is_url : string -> bool) (fd : FormData) :
  formSchema is_url fd = true <-> request_bounds is_url (handleFormSubmit fd).
Proof.
  unfold formSchema, request_bounds, handleFormSubmit; cbn [document_url questions].
  rewrite !andb_true_iff, forallb_forall, Forall_forall, !Nat.leb_le.
  split.
  - intros [[[Hu Hq] H1] H10]. split; [done|]. split; [lia|].
    intros q Hin. apply list_elem_of_In, Hq in Hin.
    unfold question_ok in Hin. apply andb_true_iff in Hin as [Ha Hb].
    apply Nat.leb_le in Ha, Hb. lia.
  - intros [Hu [[H1 H10] Hq]]. split; [split; [split|]|]; try done.
    intros q Hin. apply list_elem_of_In, Hq in Hin.
    unfold question_ok. apply andb_true_iff; split; apply Nat.leb_le; lia.
Qed.

Lemma step_bounds (fields : list Field) (a : FormAction) :
  1 <= length fields <= 10 -> 1 <= length (step fields a) <= 10.
Proof.
  intros H. destruct a as [|i]; simpl.
  - unfold addQuestion, append.
    destruct (Nat.ltb_spec (length fields) 10); [rewrite length_app; simpl|]; lia.
  - unfold removeQuestion, remove.
    destruct (Nat.ltb_spec 1 (length fields)); [|lia].
    destruct (Nat.ltb_spec i (length fields)); [|lia].
    rewrite length_app, length_take, length_drop. lia.
Qed.

Lemma fold_step_bounds (acts : list FormAction) (fields : list Field) :
  1 <= length fields <= 10 -> 1 <= length (fold_left step acts fields) <= 10.
Proof.
  revert fields. induction acts as [|a acts IH]; intros fields H; simpl.
  - done.
  - apply IH, step_bounds, H.
Qed.

End DocumentFormFacts.

(** ** AnswerDisplay *)

Module AnswerDisplayFacts.
Import AnswerDisplay.

(** The confidence of one answer with an absent one read as 0. *)
Definition confidence_value (a : AnswerResponse) : Q :=
  match ar_confidence a with Some x => x | None => 0%Q end.

Lemma or_zero_value (a : AnswerResponse) :
  (or_zero (ar_confidence a) == confidence_value a)%Q.
Proof.
  unfold or_zero, confidence_value. destruct (ar_confidence a) as [x|]; [|reflexivity].
  destruct (Qeq_bool x 0) eqn:E; [|reflexivity].
  apply Qeq_bool_eq in E. rewrite E. reflexivity.
Qed.

Lemma confidence_fold (l : list AnswerResponse) (acc : Q) :
  (fold_left (fun acc a => acc + or_zero (ar_confidence a)) l acc
   == acc + fold_right (fun a s => confidence_value a + s) 0 l)%Q.
Proof.
  revert acc. induction l as [|a l IH]; intros acc; simpl.
  - ring.
  - rewrite IH, or_zero_value. ring.
Qed.

End AnswerDisplayFacts.

(** Claim C1.  A request leaves the form only if its URL is valid, it has
    between 1 and 10 questions and every question has between 1 and 1000
    characters; a request that breaks any of these bounds is stopped by
    the form's validation, before anything is sent for ingestion. *)
Theorem C1_request_sent_only_within_bounds
    (is_url : string -> bool) (bearerToken : string) (fd : DocumentForm.FormData) :
  (forall r, DocumentForm.submit is_url bearerToken fd = DocumentForm.Sent r ->
     r = DocumentForm.handleFormSubmit fd /\ DocumentForm.request_bounds is_url r)
  /\ (~ DocumentForm.request_bounds is_url (DocumentForm.handleFormSubmit fd) ->
      DocumentForm.submit is_url bearerToken fd = DocumentForm.ValidationErrors).
Proof.
  unfold DocumentForm.submit. split.
  - intros r. destruct (DocumentForm.formSchema is_url fd) eqn:E; [|discriminate].
    unfold DocumentForm.mutationFn.
    destruct (String.eqb bearerToken EmptyString); [discriminate|].
    intros Hr. injection Hr as <-. split; [done|].
    by apply DocumentFormFacts.formSchema_bounds.
  - intros Hn. destruct (DocumentForm.formSchema is_url fd) eqn:E; [|done].
    exfalso. apply Hn. by apply DocumentFormFacts.formSchema_bounds.
Qed.

(** Claim C9.  Whatever sequence of add and remove clicks the user makes,
    the form holds between 1 and 10 question fields: it starts with one,
    [addQuestion] appends only below 10 and [removeQuestion] removes only
    above 1. *)
Theorem C9_question_fields_between_1_and_10 (acts : list DocumentForm.FormAction) :
  1 <= length (DocumentForm.run acts) <= 10.
Proof.
  unfold DocumentForm.run. apply DocumentFormFacts.fold_step_bounds.
  unfold DocumentForm.initial_fields. simpl. lia.
Qed.

(** Claim C10.  [AnswerDisplay] renders nothing for absent or empty
    answers; for a non-empty array it never renders nothing, and when it
    renders (the document URL parses) its summary counts the answers and
    its average confidence is the sum of the confidences, absent ones
    counted as 0, divided by a non-zero number of answers. *)
Theorem C10_answer_display_null_and_average
    (url_last_segment : string -> option string) (documentUrl : string)
    (processingTime : option Q) :
  AnswerDisplay.AnswerDisplay url_last_segment None documentUrl processingTime
    = AnswerDisplay.RNull
  /\ AnswerDisplay.AnswerDisplay url_last_segment (Some []) documentUrl processingTime
    = AnswerDisplay.RNull
  /\ forall (ans : list AnswerResponse), ans <> [] ->
       AnswerDisplay.AnswerDisplay url_last_segment (Some ans) documentUrl processingTime
         <> AnswerDisplay.RNull
       /\ (forall name, url_last_segment documentUrl = Some name ->
             exists v, AnswerDisplay.AnswerDisplay url_last_segment (Some ans)
                         documentUrl processingTime = AnswerDisplay.RView v)
       /\ (forall v, AnswerDisplay.AnswerDisplay url_last_segment (Some ans)
                       documentUrl processingTime = AnswerDisplay.RView v ->
             length ans <> 0
             /\ AnswerDisplay.answered_count (AnswerDisplay.summary v) = length ans
             /\ (AnswerDisplay.average_confidence (AnswerDisplay.summary v)
                 == fold_right (fun a s => AnswerDisplayFacts.confidence_value a + s)
                      0 ans / inject_Z (Z.of_nat (length ans)))%Q).
Proof.
  split; [done|]. split; [done|].
  intros ans Hne. destruct ans as [|a rest]; [done|].
  unfold AnswerDisplay.AnswerDisplay.
  split; [|split].
  - by destruct (url_last_segment documentUrl).
  - intros name ->. eexists. reflexivity.
  - intros v. destruct (url_last_segment documentUrl) as [name|]; [|discriminate].
    intros Hv. injection Hv as <-. cbn [AnswerDisplay.summary
      AnswerDisplay.answered_count AnswerDisplay.average_confidence].
    split; [simpl; lia|]. split; [done|].
    unfold AnswerDisplay.confidence_sum.
    rewrite AnswerDisplayFacts.confidence_fold. apply Qdiv_comp; [ring|reflexivity].
Qed.

(** ** Chunker *)

Module ChunkerFacts.
Import Chunker.

Section Windows.
Context {A : Type}.

Lemma drop_take_window (l : list A) (ov ws : nat) :
  ov <= ws -> drop ov (take ws l) = take (ws - ov) (drop ov l).
Proof.
  intros H. rewrite take_drop_commute. f_equal. f_equal. lia.
Qed.

(** The later chunks from start [s] on, each without its leading overlap,
    spell out the text from [s + overlap] on. *)
Lemma windows_tail (t : list A) (ws ov : nat) :
  ov < ws ->
  forall fuel idx s, length t - s < fuel ->
    mjoin (map (fun c => drop ov (text c)) (windows fuel idx s t ws ov))
    = drop (s + ov) t.
Proof.
  intros Hov fuel. induction fuel as [|fuel IH]; intros idx s Hf; [lia|].
  cbn [windows]. destruct (Nat.ltb_spec (s + ws) (length t)) as [Hlt|Hge].
  - cbn [map mjoin list_join]. cbn [text].
    rewrite IH by lia.
    rewrite drop_take_window by lia.
    replace (s + (ws - ov) + ov) with ((s + ov) + (ws - ov)) by lia.
    rewrite <- (drop_drop t (ws - ov) (s + ov)), (drop_drop t ov s).
    apply take_drop.
  - cbn [map mjoin list_join]. cbn [text]. rewrite app_nil_r.
    rewrite take_ge by (rewrite length_drop; lia).
    apply drop_drop.
Qed.

Lemma chunk_ok (t : list A) (ws ov : nat) :
  t <> [] -> ov < ws -> chunk t ws ov = inr (windows (S (length t)) 0 0 t ws ov).
Proof.
  intros Ht Hov. unfold chunk. destruct t as [|x t']; [done|].
  destruct (Nat.leb_spec ws ov); [lia|done].
Qed.

End Windows.

End ChunkerFacts.

(** Claim C2.  For a non-empty text and [0 <= overlap < window_size],
    [chunk] succeeds and the chunks, read in order with the leading
    [overlap] characters of every chunk after the first removed (the part
    that repeats its predecessor), give back the text exactly. *)
Theorem C2_chunk_roundtrip {A : Type} (t : list A) (window_size overlap : nat) :
  t <> [] -> overlap < window_size ->
  exists cs, Chunker.chunk t window_size overlap = inr cs
             /\ Chunker.reassemble overlap cs = t.
Proof.
  intros Ht Hov. eexists. split; [by apply ChunkerFacts.chunk_ok|].
  destruct t as [|x t']; [done|].
  set (t := x :: t').
  cbn [Chunker.windows]. unfold Chunker.reassemble.
  destruct (Nat.ltb_spec (0 + window_size) (length t)) as [Hlt|Hge].
  - cbn [Chunker.text]. rewrite ChunkerFacts.windows_tail by (simpl in *; lia).
    rewrite drop_0. replace (0 + (window_size - overlap) + overlap) with window_size by lia.
    apply take_drop.
  - cbn [Chunker.text map mjoin list_join]. rewrite app_nil_r, drop_0.
    apply take_ge. lia.
Qed.

Lemma C2_chunk_roundtrip_witness :
  [1;2;3;4;5;6;7;8;9;10;11] <> [] /\ 1 < 4 /\
  exists cs, Chunker.chunk [1;2;3;4;5;6;7;8;9;10;11] 4 1 = inr cs
             /\ Chunker.reassemble 1 cs = [1;2;3;4;5;6;7;8;9;10;11].
Proof.
  split; [discriminate|]. split; [lia|].
  apply C2_chunk_roundtrip; [discriminate|lia].
Defined.

(** ** Retriever *)

Module RetrieverFacts.
Import Retriever.

(** Non-increasing scores: [a] comes before [b] only if [b] scores no more. *)
Definition score_ge (a b : RetrievalEntry) : Prop :=
  (relevance_score b <= relevance_score a)%Q.

Lemma insert_desc_perm (r : RetrievalEntry) (l : list RetrievalEntry) :
  insert_desc r l ≡ₚ r :: l.
Proof.
  induction l as [|x l IH]; simpl; [done|].
  destruct (Qle_bool (relevance_score x) (relevance_score r)); [done|].
  rewrite IH. constructor.
Qed.

Lemma sort_desc_perm (l : list RetrievalEntry) : sort_desc l ≡ₚ l.
Proof.
  induction l as [|x l IH]; simpl; [done|].
  rewrite insert_desc_perm. by f_equiv.
Qed.

Lemma insert_desc_sorted (r : RetrievalEntry) (l : list RetrievalEntry) :
  StronglySorted score_ge l -> StronglySorted score_ge (insert_desc r l).
Proof.
  induction l as [|x l IH]; intros Hs; simpl.
  - by repeat constructor.
  - inversion Hs as [|? ? Hs' Hx]; subst.
    destruct (Qle_bool (relevance_score x) (relevance_score r)) eqn:E.
    + apply Qle_bool_iff in E. constructor; [done|].
      constructor; [done|].
      eapply Forall_impl; [exact Hx|]. intros y Hy. unfold score_ge in *.
      eapply Qle_trans; eauto.
    + constructor; [by apply IH|].
      assert (Hrx : score_ge x r).
      { unfold score_ge. apply Qlt_le_weak, Qnot_le_lt.
        intros Hle. apply Qle_bool_iff in Hle. congruence. }
      rewrite (insert_desc_perm r l).
      by constructor.
Qed.

Lemma sort_desc_sorted (l : list RetrievalEntry) :
  StronglySorted score_ge (sort_desc l).
Proof.
  induction l as [|x l IH]; simpl; [constructor|].
  by apply insert_desc_sorted.
Qed.

Lemma strongly_sorted_sublist {T : Type} (R : relation T) (l1 l2 : list T) :
  l1 `sublist_of` l2 -> StronglySorted R l2 -> StronglySorted R l1.
Proof.
  induction 1 as [|x l1 l2 Hsub IH|x l1 l2 Hsub IH]; intros Hs; [done| |].
  - inversion Hs as [|? ? Hs' Hx]; subst. constructor; [by apply IH|].
    apply Forall_forall. intros y Hy.
    eapply Forall_forall in Hx; [exact Hx|]. by eapply elem_of_sublist.
  - inversion Hs; subst. by apply IH.
Qed.

End RetrieverFacts.

(** Claim C4.  When the similarity of the vector store lies in [0,1], a
    Retrieval Result has at most [k] entries, every score in [0,1], scores
    non-increasing along the sequence, and no entry scoring below
    [min_relevance] (the cut is applied after the top [k], so fewer than
    [k] entries may remain). *)
Theorem C4_retrieval_result_invariants {V : Type}
    (similarity : V -> V -> Q) (embed : string -> V)
    (index : gmap string (list (Retriever.IndexEntry V)))
    (document_key question : string) (k : nat) (min_relevance : Q) :
  (forall u v, 0 <= similarity u v <= 1)%Q ->
  let res := Retriever.retrieve similarity embed index document_key question k
               min_relevance in
  length res <= k
  /\ Forall (fun r => 0 <= Retriever.relevance_score r <= 1)%Q res
  /\ Sorted (fun a b => Retriever.relevance_score b <= Retriever.relevance_score a)%Q res
  /\ Forall (fun r => min_relevance <= Retriever.relevance_score r)%Q res.
Proof.
  intros Hsim res. unfold res, Retriever.retrieve, Retriever.query.
  destruct (index !! document_key) as [entries|].
  2:{ simpl. repeat split; try constructor. lia. }
  set (L := Retriever.sort_desc _).
  set (P := fun r : Retriever.RetrievalEntry =>
              Qle_bool min_relevance (Retriever.relevance_score r) = true).
  assert (Hsub : filter P (take k L) `sublist_of` L).
  { transitivity (take k L); [apply sublist_filter|apply sublist_take]. }
  split; [|split; [|split]].
  - etransitivity; [apply sublist_length, sublist_filter|].
    rewrite length_take. lia.
  - apply Forall_forall. intros r Hr.
    eapply elem_of_sublist in Hr; [|exact Hsub].
    unfold L in Hr. rewrite RetrieverFacts.sort_desc_perm in Hr.
    apply list_elem_of_fmap in Hr as [e [-> _]]. simpl. apply Hsim.
  - apply StronglySorted_Sorted.
    eapply RetrieverFacts.strongly_sorted_sublist; [exact Hsub|].
    apply RetrieverFacts.sort_desc_sorted.
  - apply Forall_forall. intros r Hr.
    apply list_elem_of_filter in Hr as [Hp _]. by apply Qle_bool_iff.
Qed.

Lemma C4_retrieval_result_invariants_witness :
  (forall u v : list Q, 0 <= (fun _ _ => 1#2) u v <= 1)%Q /\
  let res := Retriever.retrieve (fun _ _ : list Q => 1#2) (fun _ => [])
               {[ "doc" := [Retriever.mkIndexEntry "c0" [] "chunk zero"] ]}
               "doc" "what?" 5 (1#4) in
  length res <= 5
  /\ Forall (fun r => 0 <= Retriever.relevance_score r <= 1)%Q res
  /\ Sorted (fun a b => Retriever.relevance_score b <= Retriever.relevance_score a)%Q res
  /\ Forall (fun r => 1#4 <= Retriever.relevance_score r)%Q res.
Proof.
  assert (H : (forall u v : list Q, 0 <= (fun _ _ => 1#2) u v <= 1)%Q).
  { intros u v. split; vm_compute; discriminate. }
  split; [exact H|].
  exact (C4_retrieval_result_invariants (fun _ _ => 1#2) (fun _ => []) _ "doc" "what?"
           5 (1#4) H).
Defined.

(** ** Answer synthesizer *)

Module SynthesizerFacts.
Import Synthesizer.

(** The output misses one of the fields or has a non-numeric confidence
    (free text, which is not a JSON object, misses them all). *)
Definition missing_field_or_non_numeric (o : LMOutput) : Prop :=
  match structured o with
  | Some (JObj fs) =>
      field "answer" fs = None
      \/ field "sources" fs = None
      \/ (forall c, field "confidence" fs <> Some (JNum c))
  | _ => True
  end.

Lemma parse_output_malformed (o : LMOutput) :
  missing_field_or_non_numeric o -> parse_output o = Malformed (raw_text o).
Proof.
  unfold missing_field_or_non_numeric, parse_output.
  destruct (structured o) as [[| | | | |fs]|]; try done.
  intros [Ha|[Hs|Hc]].
  - by rewrite Ha.
  - rewrite Hs. by destruct (field "answer" fs ≫= as_string).
  - assert (Hn : field "confidence" fs ≫= as_number = None).
    { destruct (field "confidence" fs) as [[| |c| | |]|] eqn:E; try done.
      exfalso. by apply (Hc c). }
    rewrite Hn. by destruct (field "answer" fs ≫= as_string),
                            (field "sources" fs ≫= as_strings).
Qed.

End SynthesizerFacts.

(** Claim C5.  With a non-empty chunk list, when the language-model
    service answers with an output that misses a field or has a
    non-numeric confidence, [synthesize] makes its one call and returns
    (without error) the Answer Record whose answer text is the raw output,
    whose sources are all the supplied chunks and whose confidence is
    absent. *)
Theorem C5_malformed_output_fallback
    (generate : string -> Synthesizer.LMError + Synthesizer.LMOutput)
    (q : string) (chunks : list string) (o : Synthesizer.LMOutput) :
  chunks <> [] ->
  generate (Synthesizer.build_prompt q chunks) = inr o ->
  SynthesizerFacts.missing_field_or_non_numeric o ->
  Synthesizer.synthesize generate q chunks
  = ([Synthesizer.build_prompt q chunks],
     inr (mkAnswerResponse q (Synthesizer.raw_text o) chunks None)).
Proof.
  intros Hne Hgen Hmal. unfold Synthesizer.synthesize.
  destruct chunks as [|c cs]; [done|].
  rewrite Hgen, SynthesizerFacts.parse_output_malformed by exact Hmal.
  reflexivity.
Qed.

Lemma C5_malformed_output_fallback_witness :
  let o := Synthesizer.mkLMOutput "The policy covers it."
             (Some (Synthesizer.JObj
                      [("answer", Synthesizer.JStr "The policy covers it.");
                       ("sources", Synthesizer.JArr [Synthesizer.JStr "clause 4"])])) in
  let gen := fun _ : string => inr o : Synthesizer.LMError + Synthesizer.LMOutput in
  ["clause 4"; "clause 7"] <> []
  /\ gen (Synthesizer.build_prompt "Is it covered?" ["clause 4"; "clause 7"]) = inr o
  /\ SynthesizerFacts.missing_field_or_non_numeric o
  /\ Synthesizer.synthesize gen "Is it covered?" ["clause 4"; "clause 7"]
     = ([Synthesizer.build_prompt "Is it covered?" ["clause 4"; "clause 7"]],
        inr (mkAnswerResponse "Is it covered?" (Synthesizer.raw_text o)
               ["clause 4"; "clause 7"] None)).
Proof.
  intros o gen.
  assert (Hm : SynthesizerFacts.missing_field_or_non_numeric o).
  { unfold SynthesizerFacts.missing_field_or_non_numeric. simpl.
    right. right. intros c. discriminate. }
  split; [discriminate|]. split; [reflexivity|]. split; [exact Hm|].
  apply C5_malformed_output_fallback; [discriminate|reflexivity|exact Hm].
Defined.

(** Claim C6.  With no retrieved chunk, [synthesize] sends nothing to the
    language-model service and returns, without error, the fixed
    "insufficient information in document" answer with no sources and
    confidence 0. *)
Theorem C6_empty_chunks_insufficient_information
    (generate : string -> Synthesizer.LMError + Synthesizer.LMOutput) (q : string) :
  Synthesizer.synthesize generate q []
  = ([], inr (mkAnswerResponse q "insufficient information in document" [] (Some 0%Q))).
Proof. reflexivity. Qed.

(** ** Orchestrator *)

Module OrchestratorFacts.
Import Orchestrator.

Section Answering.
Variable answer_one : string -> AnswerResponse.

Lemma answering_fold_lookup (qs : list string) (order : list nat)
    (slots : list (option AnswerResponse)) :
  length slots = length qs ->
  forall i, fold_left (complete answer_one qs) order slots !! i
            = if decide (i ∈ order) then (fun q => Some (answer_one q)) <$> qs !! i
              else slots !! i.
Proof.
  revert slots. induction order as [|j rest IH]; intros slots Hlen i; cbn [fold_left].
  - rewrite decide_False; [done|]. apply not_elem_of_nil.
  - rewrite IH.
    2:{ unfold complete. destruct (qs !! j); [by rewrite length_insert|done]. }
    destruct (decide (i ∈ rest)) as [Hin|Hnin].
    + rewrite decide_True; [done|]. by apply elem_of_cons; right.
    + unfold complete. destruct (decide (i = j)) as [->|Hij].
      * rewrite decide_True by (apply elem_of_cons; by left).
        destruct (qs !! j) as [q|] eqn:Hq; simpl.
        -- apply list_lookup_insert_eq. apply lookup_lt_Some in Hq. lia.
        -- apply lookup_ge_None in Hq. apply lookup_ge_None. lia.
      * rewrite decide_False.
        2:{ intros Hc. apply elem_of_cons in Hc as [Hc|Hc]; done. }
        destruct (qs !! j); [|done]. by apply list_lookup_insert_ne.
Qed.

Lemma answering_complete (qs : list string) (order : list nat) :
  order ≡ₚ seq 0 (length qs) ->
  answering answer_one qs order = map (fun q => Some (answer_one q)) qs.
Proof.
  intros Hperm. apply list_eq. intros i. unfold answering.
  rewrite answering_fold_lookup by (by rewrite length_replicate).
  rewrite list_lookup_fmap.
  destruct (decide (i ∈ order)) as [Hin|Hnin]; [done|].
  destruct (qs !! i) eqn:Hq; simpl.
  - exfalso. apply Hnin. rewrite Hperm. apply elem_of_seq.
    apply lookup_lt_Some in Hq. lia.
  - apply lookup_ge_None. rewrite length_replicate. by apply lookup_ge_None.
Qed.

Lemma aggregate_all (qs : list string) :
  aggregate (map (fun q => Some (answer_one q)) qs) = Some (map answer_one qs).
Proof.
  unfold aggregate. induction qs as [|q qs IH]; simpl; [done|].
  by rewrite IH.
Qed.

End Answering.

End OrchestratorFacts.

(** Claim C3.  Whatever order the per-question tasks complete in, once the
    document is ingested the pipeline completes and its answers are the
    Answer Records of the input questions, one per question, in the input
    order. *)
Theorem C3_answers_in_input_order
    (ingest : string -> Orchestrator.IngestOutcome)
    (answer_one : string -> AnswerResponse) (t_received t_completed : Q)
    (req : HackRXRequest) (order : list nat) :
  order ≡ₚ seq 0 (length (questions req)) ->
  ingest (document_url req) = Orchestrator.IngestReady ->
  exists r, Orchestrator.run_pipeline ingest answer_one t_received t_completed req order
            = Orchestrator.Completed r
  /\ answers r = map (fun qr => answer_one (question qr)) (questions req).
Proof.
  intros Hperm Hing. unfold Orchestrator.run_pipeline. rewrite Hing.
  rewrite OrchestratorFacts.answering_complete by (by rewrite length_map).
  rewrite OrchestratorFacts.aggregate_all.
  eexists. split; [reflexivity|]. simpl. by rewrite map_map.
Qed.

Lemma C3_answers_in_input_order_witness :
  let req := mkHackRXRequest "https://example.com/policy.pdf"
               [mkQuestionRequest "Q1"; mkQuestionRequest "Q2"; mkQuestionRequest "Q3"] in
  let answer_one := fun q => mkAnswerResponse q ("A" +:+ q) [] None in
  [2; 0; 1] ≡ₚ seq 0 (length (questions req))
  /\ (fun _ : string => Orchestrator.IngestReady) (document_url req)
     = Orchestrator.IngestReady
  /\ exists r, Orchestrator.run_pipeline (fun _ => Orchestrator.IngestReady) answer_one
                 0 2500 req [2; 0; 1] = Orchestrator.Completed r
     /\ answers r = map (fun qr => answer_one (question qr)) (questions req).
Proof.
  intros req answer_one.
  assert (Hp : [2; 0; 1] ≡ₚ seq 0 (length (questions req))).
  { simpl. apply (Permutation_cons_append [0; 1] 2). }
  split; [exact Hp|]. split; [reflexivity|].
  exact (C3_answers_in_input_order (fun _ => Orchestrator.IngestReady) answer_one
           0 2500 req [2; 0; 1] Hp eq_refl).
Defined.

(** Claim C7.  Every response the pipeline completes with is a success
    and carries [processing_time_ms], the wall-clock time from receiving
    the request to completing it. *)
Theorem C7_processing_time_recorded
    (ingest : string -> Orchestrator.IngestOutcome)
    (answer_one : string -> AnswerResponse) (t_received t_completed : Q)
    (req : HackRXRequest) (order : list nat) (r : HackRXResponse) :
  Orchestrator.run_pipeline ingest answer_one t_received t_completed req order
  = Orchestrator.Completed r ->
  success r = true /\ processing_time_ms r = Some (t_completed - t_received)%Q.
Proof.
  unfold Orchestrator.run_pipeline.
  destruct (ingest (document_url req)); [|discriminate].
  destruct (Orchestrator.aggregate _); [|discriminate].
  intros H. injection H as <-. done.
Qed.

Lemma C7_processing_time_recorded_witness :
  let req := mkHackRXRequest "https://example.com/policy.pdf"
               [mkQuestionRequest "Q1"] in
  let answer_one := fun q => mkAnswerResponse q "A" [] None in
  let r := mkHackRXResponse true "https://example.com/policy.pdf"
             [answer_one "Q1"] (Some (2500 - 0)%Q) in
  Orchestrator.run_pipeline (fun _ => Orchestrator.IngestReady) answer_one 0 2500 req [0]
  = Orchestrator.Completed r
  /\ success r = true /\ processing_time_ms r = Some (2500 - 0)%Q.
Proof.
  intros req answer_one r.
  assert (H : Orchestrator.run_pipeline (fun _ => Orchestrator.IngestReady) answer_one
                0 2500 req [0] = Orchestrator.Completed r) by reflexivity.
  split; [exact H|].
  exact (C7_processing_time_recorded _ _ 0 2500 req [0] r H).
Defined.

(** ** Document cache under concurrent callers *)

Module DocumentCacheFacts.
Import DocumentCache.

Fixpoint count_pc (p : Pc -> bool) (l : list Pc) : nat :=
  match l with
  | [] => 0
  | x :: l' => (if p x then 1 else 0) + count_pc p l'
  end.

Definition is_owner (pc : Pc) : bool :=
  match pc with Ingesting | Marking => true | _ => false end.

Definition is_marking (pc : Pc) : bool :=
  match pc with Marking => true | _ => false end.

Lemma count_insert (p : Pc -> bool) (l : list Pc) (i : nat) (x y : Pc) :
  l !! i = Some y ->
  count_pc p (<[i := x]> l) + (if p y then 1 else 0)
  = count_pc p l + (if p x then 1 else 0).
Proof.
  revert i. induction l as [|z l IH]; intros [|i] Hi; simpl in *; try done.
  - injection Hi as ->. lia.
  - specialize (IH i Hi). lia.
Qed.

Lemma count_zero (p : Pc -> bool) (l : list Pc) :
  Forall (fun pc => p pc = false) l -> count_pc p l = 0.
Proof. induction 1 as [|x l Hx _ IH]; simpl; [done|]. by rewrite Hx, IH. Qed.

Lemma count_mono (p q : Pc -> bool) (l : list Pc) :
  (forall x, p x = true -> q x = true) -> count_pc p l <= count_pc q l.
Proof.
  intros Hpq. induction l as [|x l IH]; simpl; [lia|].
  destruct (p x) eqn:E; [rewrite (Hpq x E)|destruct (q x)]; lia.
Qed.

Section Inv.
Variable key : string.
Variable now : nat.
Variable chunks_of_document : nat.

Definition ready_record : IngestionRecord :=
  mark_ready (pending_record key now) chunks_of_document.

(** The invariant of every interleaving started from an unseen key. *)
Definition Inv (st : State) : Prop :=
  match cache st !! key with
  | None => Forall (fun pc => pc = AtStart) (threads st) /\ ingestion_runs st = 0
  | Some r =>
      (r = pending_record key now
       /\ count_pc is_owner (threads st) = 1
       /\ ingestion_runs st = count_pc is_marking (threads st)
       /\ Forall (fun pc => is_done pc = false) (threads st))
      \/ (r = ready_record
          /\ count_pc is_owner (threads st) = 0
          /\ ingestion_runs st = 1
          /\ Forall (fun pc => forall o, pc = Done o -> o = ready_record) (threads st))
  end.

Lemma Inv_init (c0 : gmap string IngestionRecord) (n : nat) :
  c0 !! key = None -> Inv (init c0 n).
Proof.
  intros H. unfold Inv, init; simpl. rewrite H. split; [|done].
  apply Forall_replicate. done.
Qed.

Lemma Inv_step (st : State) (tid : nat) :
  Inv st -> Inv (step key now chunks_of_document st tid).
Proof.
  unfold Inv, step. destruct (threads st !! tid) as [pc|] eqn:Hpc; [|done].
  destruct st as [c ths runs]; simpl in *.
  destruct (c !! key) as [r|] eqn:Hc.
  - intros [[-> [Ho [Hr Hnd]]]|[-> [Ho [Hr Hobs]]]].
    + (* pending *)
      destruct pc as [| | | |o]; simpl; rewrite ?Hc; simpl; rewrite ?Hc, ?lookup_insert_eq.
      * left. pose proof (count_insert is_owner ths tid Awaiting AtStart Hpc).
        pose proof (count_insert is_marking ths tid Awaiting AtStart Hpc).
        simpl in *. repeat split; try lia. by apply Forall_insert.
      * left. pose proof (count_insert is_owner ths tid Marking Ingesting Hpc).
        pose proof (count_insert is_marking ths tid Marking Ingesting Hpc).
        simpl in *. repeat split; try lia. by apply Forall_insert.
      * right. fold ready_record.
        pose proof (count_insert is_owner ths tid (Done ready_record) Marking Hpc).
        pose proof (count_insert is_marking ths tid (Done ready_record) Marking Hpc).
        pose proof (count_mono is_marking is_owner ths ltac:(by intros [] ?)).
        simpl in *. repeat split; try lia.
        apply Forall_insert; [|by intros o Ho'; injection Ho'].
        eapply Forall_impl; [exact Hnd|]. by intros [] ? o' ?.
      * left. rewrite list_insert_id by done. repeat split; done.
      * exfalso. eapply Forall_lookup_1 in Hnd; [|exact Hpc]. done.
    + (* ready *)
      destruct pc as [| | | |o]; simpl; rewrite ?Hc; simpl; rewrite ?Hc, ?lookup_insert_eq.
      * right. pose proof (count_insert is_owner ths tid Awaiting AtStart Hpc).
        simpl in *. repeat split; try lia. by apply Forall_insert.
      * exfalso. pose proof (count_insert is_owner ths tid AtStart Ingesting Hpc).
        simpl in *. lia.
      * exfalso. pose proof (count_insert is_owner ths tid AtStart Marking Hpc).
        simpl in *. lia.
      * right. pose proof (count_insert is_owner ths tid (Done ready_record) Awaiting Hpc).
        simpl in *. repeat split; try lia.
        apply Forall_insert; [done|]. by intros o Ho'; injection Ho'.
      * right. rewrite list_insert_id by done. repeat split; done.
  - intros [Hall Hr].
    pose proof (Forall_lookup_1 _ _ _ _ Hall Hpc) as ->. simpl. rewrite Hc.
    simpl. rewrite lookup_insert_eq. left.
    pose proof (count_insert is_owner ths tid Ingesting AtStart Hpc).
    pose proof (count_insert is_marking ths tid Ingesting AtStart Hpc).
    rewrite (count_zero is_owner ths) in * by (eapply Forall_impl; [exact Hall|]; by intros ? ->).
    rewrite (count_zero is_marking ths) in * by (eapply Forall_impl; [exact Hall|]; by intros ? ->).
    simpl in *. repeat split; try lia.
    apply Forall_insert; [|done].
    eapply Forall_impl; [exact Hall|]. by intros ? ->.
Qed.

Lemma Inv_run (st : State) (sched : list nat) :
  Inv st -> Inv (run key now chunks_of_document st sched).
Proof.
  unfold run. revert st. induction sched as [|tid sched IH]; intros st H; simpl; [done|].
  by apply IH, Inv_step.
Qed.

Lemma length_threads_run (st : State) (sched : list nat) :
  length (threads (run key now chunks_of_document st sched)) = length (threads st).
Proof.
  unfold run. revert st. induction sched as [|tid sched IH]; intros st; simpl; [done|].
  rewrite IH. unfold step. destruct (threads st !! tid); [|done].
  destruct (thread_step _ _ _ _ _ _) as [[? ?] ?]. simpl. by rewrite length_insert.
Qed.

End Inv.

End DocumentCacheFacts.

(** Claim C8.  Let [n >= 1] callers run [get_or_create] concurrently on a
    key the cache has not seen, under any interleaving [sched] of their
    atomic steps.  At most one chunk/embed/upsert run ever happens; once
    every caller is done, exactly one run has happened and every caller
    holds the same ready Ingestion Record. *)
Theorem C8_get_or_create_single_ingestion (key : string) (now chunks_of_document : nat)
    (c0 : gmap string DocumentCache.IngestionRecord) (n : nat) (sched : list nat) :
  1 <= n -> c0 !! key = None ->
  let st := DocumentCache.run key now chunks_of_document (DocumentCache.init c0 n) sched in
  DocumentCache.ingestion_runs st <= 1
  /\ (DocumentCache.all_done st = true ->
      DocumentCache.ingestion_runs st = 1
      /\ Forall (fun pc => pc = DocumentCache.Done
                   (DocumentCacheFacts.ready_record key now chunks_of_document))
           (DocumentCache.threads st)
      /\ DocumentCache.status (DocumentCacheFacts.ready_record key now chunks_of_document)
         = DocumentCache.Ready).
Proof.
  intros Hn Hc0 st.
  pose proof (DocumentCacheFacts.Inv_run key now chunks_of_document _ sched
                (DocumentCacheFacts.Inv_init key now chunks_of_document c0 n Hc0)) as Hinv.
  pose proof (DocumentCacheFacts.length_threads_run key now chunks_of_document
                (DocumentCache.init c0 n) sched) as Hlen.
  fold st in Hinv, Hlen. simpl in Hlen. rewrite length_replicate in Hlen.
  unfold DocumentCacheFacts.Inv in Hinv.
  destruct (DocumentCache.cache st !! key) as [r|].
  - destruct Hinv as [[_ [Ho [Hr _]]]|[_ [_ [Hr Hobs]]]].
    + pose proof (DocumentCacheFacts.count_mono DocumentCacheFacts.is_marking
                    DocumentCacheFacts.is_owner (DocumentCache.threads st)
                    ltac:(by intros [] ?)).
      split; [lia|]. intros Hdone. exfalso.
      unfold DocumentCache.all_done in Hdone.
      rewrite DocumentCacheFacts.count_zero in Ho; [done|].
      apply Forall_forall. intros pc Hpc.
      apply list_elem_of_In in Hpc.
      pose proof (proj1 (forallb_forall _ _) Hdone pc Hpc). by destruct pc.
    + split; [lia|]. intros Hdone. split; [done|]. split; [|done].
      unfold DocumentCache.all_done in Hdone.
      apply Forall_forall. intros pc Hpc.
      pose proof Hpc as Hpc'. apply list_elem_of_In in Hpc'.
      pose proof (proj1 (forallb_forall _ _) Hdone pc Hpc') as Hd.
      destruct pc as [| | | |o]; try discriminate.
      eapply Forall_forall in Hobs; [|exact Hpc]. by rewrite (Hobs o).
  - destruct Hinv as [Hall Hr]. split; [lia|]. intros Hdone. exfalso.
    destruct (DocumentCache.threads st) as [|pc ths] eqn:E; [simpl in Hlen; lia|].
    inversion Hall; subst. unfold DocumentCache.all_done in Hdone.
    rewrite E in Hdone. discriminate.
Qed.

Lemma C8_get_or_create_single_ingestion_witness :
  let st := DocumentCache.run "https://example.com/policy.pdf" 5 7
              (DocumentCache.init ∅ 3) [0; 1; 0; 2; 0; 1; 2] in
  DocumentCache.all_done st = true
  /\ 1 <= 3 /\ (∅ : gmap string DocumentCache.IngestionRecord)
                 !! "https://example.com/policy.pdf" = None
  /\ DocumentCache.ingestion_runs st <= 1
  /\ (DocumentCache.all_done st = true ->
      DocumentCache.ingestion_runs st = 1
      /\ Forall (fun pc => pc = DocumentCache.Done
                   (DocumentCacheFacts.ready_record "https://example.com/policy.pdf" 5 7))
           (DocumentCache.threads st)
      /\ DocumentCache.status
           (DocumentCacheFacts.ready_record "https://example.com/policy.pdf" 5 7)
         = DocumentCache.Ready).
Proof.
  intros st. split; [vm_compute; reflexivity|].
  assert (H1 : 1 <= 3) by lia.
  assert (H2 : (∅ : gmap string DocumentCache.IngestionRecord)
                 !! "https://example.com/policy.pdf" = None) by apply lookup_empty.
  split; [exact H1|]. split; [exact H2|].
  exact (C8_get_or_create_single_ingestion "https://example.com/policy.pdf" 5 7 ∅ 3
           [0; 1; 0; 2; 0; 1; 2] H1 H2).
Defined.

(* ================================================================== *)
(** * Further properties of the frontend and of run-dev.sh *)

(** ** DocumentForm buttons and handlers *)

Module DocumentFormButtonFacts.
Import DocumentForm DocumentFormButtons.

Lemma remove_lookup (fields : list Field) (i j : nat) :
  i < length fields ->
  remove fields i !! j = if j <? i then fields !! j else fields !! S j.
Proof.
  intros Hi. unfold remove. rewrite (proj2 (Nat.ltb_lt _ _) Hi).
  destruct (Nat.ltb_spec j i) as [Hj|Hj].
  - rewrite lookup_app_l by (rewrite length_take; lia). apply lookup_take_lt. lia.
  - rewrite lookup_app_r by (rewrite length_take; lia).
    rewrite lookup_drop, length_take. f_equal. lia.
Qed.

End DocumentFormButtonFacts.

(** While no request is processing, the "Add Question" button is enabled
    exactly when clicking it changes the question list, and then it adds
    one empty question at the end. *)
Theorem add_button_enabled_iff_adds (fields : list DocumentForm.Field) :
  (DocumentFormButtons.add_disabled fields false = false
   <-> DocumentForm.addQuestion fields <> fields)
  /\ (DocumentFormButtons.add_disabled fields false = false ->
      DocumentForm.addQuestion fields = fields ++ [DocumentForm.mkField EmptyString]).
Proof.
  unfold DocumentFormButtons.add_disabled, DocumentForm.addQuestion,
    DocumentForm.append. rewrite orb_false_r.
  destruct (Nat.leb_spec 10 (length fields)), (Nat.ltb_spec (length fields) 10);
    try lia.
  - split; [split; [discriminate|done]|discriminate].
  - split; [|done]. split; [|done]. intros _ Heq.
    apply (f_equal length) in Heq. rewrite length_app in Heq. simpl in Heq. lia.
Qed.

(** While no request is processing, the trash button of question [i] is
    enabled exactly when clicking it changes the list; it then drops
    question [i] and keeps the others in order. *)
Theorem remove_button_enabled_iff_removes (fields : list DocumentForm.Field) (i : nat) :
  i < length fields ->
  (DocumentFormButtons.remove_disabled fields false = false
   <-> DocumentForm.removeQuestion fields i <> fields)
  /\ (DocumentFormButtons.remove_disabled fields false = false ->
      forall j, DocumentForm.removeQuestion fields i !! j
                = if j <? i then fields !! j else fields !! S j).
Proof.
  intros Hi. unfold DocumentFormButtons.remove_disabled, DocumentForm.removeQuestion.
  rewrite orb_false_r.
  destruct (Nat.leb_spec (length fields) 1), (Nat.ltb_spec 1 (length fields)); try lia.
  - split; [split; [discriminate|done]|discriminate].
  - split.
    + split; [|done]. intros _ Heq. apply (f_equal length) in Heq.
      unfold DocumentForm.remove in Heq. rewrite (proj2 (Nat.ltb_lt _ _) Hi) in Heq.
      rewrite length_app, length_take, length_drop in Heq. lia.
    + intros _ j. by apply DocumentFormButtonFacts.remove_lookup.
Qed.

Lemma remove_button_enabled_iff_removes_witness :
  let fields := [DocumentForm.mkField "a"; DocumentForm.mkField "b";
                 DocumentForm.mkField "c"] in
  1 < length fields /\
  (DocumentFormButtons.remove_disabled fields false = false
   <-> DocumentForm.removeQuestion fields 1 <> fields)
  /\ (DocumentFormButtons.remove_disabled fields false = false ->
      forall j, DocumentForm.removeQuestion fields 1 !! j
                = if j <? 1 then fields !! j else fields !! S j).
Proof.
  intros fields. assert (H : 1 < length fields) by (simpl; lia).
  split; [exact H|]. exact (remove_button_enabled_iff_removes fields 1 H).
Defined.

(** Adding a question and then removing the last one (the one just
    added) gives back the original list, for 1 to 9 questions. *)
Theorem add_then_remove_last_roundtrip (fields : list DocumentForm.Field) :
  1 <= length fields < 10 ->
  DocumentForm.removeQuestion (DocumentForm.addQuestion fields) (length fields) = fields.
Proof.
  intros H. unfold DocumentForm.addQuestion, DocumentForm.append.
  rewrite (proj2 (Nat.ltb_lt _ _) (proj2 H)).
  unfold DocumentForm.removeQuestion, DocumentForm.remove.
  rewrite length_app. simpl.
  rewrite (proj2 (Nat.ltb_lt 1 (length fields + 1))) by lia.
  rewrite (proj2 (Nat.ltb_lt (length fields) (length fields + 1))) by lia.
  rewrite take_app_length, drop_app_ge by lia.
  replace (S (length fields) - length fields) with 1 by lia. simpl.
  apply app_nil_r.
Qed.

Lemma add_then_remove_last_roundtrip_witness :
  1 <= length [DocumentForm.mkField "a"; DocumentForm.mkField "b"] < 10 /\
  DocumentForm.removeQuestion
    (DocumentForm.addQuestion [DocumentForm.mkField "a"; DocumentForm.mkField "b"]) 2
  = [DocumentForm.mkField "a"; DocumentForm.mkField "b"].
Proof.
  assert (H : 1 <= length [DocumentForm.mkField "a"; DocumentForm.mkField "b"] < 10)
    by (simpl; lia).
  split; [exact H|].
  exact (add_then_remove_last_roundtrip [DocumentForm.mkField "a"; DocumentForm.mkField "b"] H).
Defined.

(** ** AnswerCard and the average confidence *)

Module AnswerCardFacts.

Lemma show_after_odd (clicks : nat) : AnswerCard.show_after clicks = Nat.odd clicks.
Proof.
  induction clicks as [|n IH]; [done|].
  unfold AnswerCard.show_after in *. simpl. rewrite IH, Nat.odd_succ, <- Nat.negb_odd.
  done.
Qed.

Lemma confidence_values_bounds (ans : list AnswerResponse) :
  (forall a c, a ∈ ans -> ar_confidence a = Some c -> 0 <= c <= 1)%Q ->
  (0 <= fold_right (fun a s => AnswerDisplayFacts.confidence_value a + s) 0 ans
   <= inject_Z (Z.of_nat (length ans)))%Q.
Proof.
  induction ans as [|a ans IH]; intros H; simpl; [split; discriminate|].
  assert (Ha : (0 <= AnswerDisplayFacts.confidence_value a <= 1)%Q).
  { unfold AnswerDisplayFacts.confidence_value.
    destruct (ar_confidence a) as [c|] eqn:E; [|split; discriminate].
    eapply H; [apply list_elem_of_here|exact E]. }
  destruct IH as [IH0 IH1].
  { intros b c Hb. apply H. by apply list_elem_of_further. }
  rewrite Nat2Z.inj_succ, <- Z.add_1_r, inject_Z_plus.
  change (inject_Z 1) with 1%Q. lra.
Qed.

End AnswerCardFacts.

(** An answer card shows a sources block only when the answer has
    sources; after [clicks] clicks on Show/Hide it lists all the sources,
    in order, exactly when [clicks] is odd, with the button then reading
    "Hide" (and "Show" otherwise). *)
Theorem answer_card_sources_after_clicks (answer : AnswerResponse) (clicks : nat) :
  AnswerCard.sources_block (AnswerCard.AnswerCard answer (AnswerCard.show_after clicks))
  = match ar_sources answer with
    | [] => None
    | srcs => Some (AnswerCard.mkSourcesView (length srcs)
                      (if Nat.odd clicks then "Hide" else "Show")
                      (if Nat.odd clicks then srcs else []))
    end.
Proof.
  rewrite AnswerCardFacts.show_after_odd. unfold AnswerCard.AnswerCard. simpl.
  by destruct (ar_sources answer).
Qed.

(** When every confidence present lies in [0,1], the average confidence
    of the summary lies in [0,1] too. *)
Theorem average_confidence_in_unit_interval
    (url_last_segment : string -> option string) (ans : list AnswerResponse)
    (documentUrl : string) (processingTime : option Q) (v : AnswerDisplay.View) :
  (forall a c, a ∈ ans -> ar_confidence a = Some c -> 0 <= c <= 1)%Q ->
  AnswerDisplay.AnswerDisplay url_last_segment (Some ans) documentUrl processingTime
  = AnswerDisplay.RView v ->
  (0 <= AnswerDisplay.average_confidence (AnswerDisplay.summary v) <= 1)%Q.
Proof.
  intros Hc Hv. destruct ans as [|a rest]; [discriminate|].
  unfold AnswerDisplay.AnswerDisplay in Hv.
  destruct (url_last_segment documentUrl); [|discriminate].
  injection Hv as <-. cbn [AnswerDisplay.summary AnswerDisplay.average_confidence].
  pose proof (AnswerCardFacts.confidence_values_bounds (a :: rest) Hc) as [H0 H1].
  change (length (a :: rest)) with (S (length rest)) in *.
  set (n := inject_Z (Z.of_nat (S (length rest)))) in *.
  assert (Hn : (0 < n)%Q).
  { unfold n. change 0%Q with (inject_Z 0). rewrite <- Zlt_Qlt. simpl. lia. }
  unfold AnswerDisplay.confidence_sum.
  rewrite (AnswerDisplayFacts.confidence_fold (a :: rest) 0).
  split.
  - apply Qle_shift_div_l; [exact Hn|]. lra.
  - apply Qle_shift_div_r; [exact Hn|]. lra.
Qed.

Lemma average_confidence_in_unit_interval_witness :
  let ans := [mkAnswerResponse "Q1" "A1" [] (Some (9#10));
              mkAnswerResponse "Q2" "A2" [] None] in
  let seg := fun _ : string => Some "policy.pdf" in
  (forall a c, a ∈ ans -> ar_confidence a = Some c -> 0 <= c <= 1)%Q
  /\ exists v, AnswerDisplay.AnswerDisplay seg (Some ans) "https://example.com/policy.pdf"
                 (Some 2500%Q) = AnswerDisplay.RView v
     /\ (0 <= AnswerDisplay.average_confidence (AnswerDisplay.summary v) <= 1)%Q.
Proof.
  intros ans seg.
  assert (Hc : (forall a c, a ∈ ans -> ar_confidence a = Some c -> 0 <= c <= 1)%Q).
  { intros a c Ha Hac. unfold ans in Ha.
    apply elem_of_cons in Ha as [->|Ha].
    { simpl in Hac. injection Hac as <-. split; vm_compute; discriminate. }
    apply elem_of_cons in Ha as [->|Ha]; [discriminate|].
    by apply not_elem_of_nil in Ha. }
  split; [exact Hc|]. eexists. split; [reflexivity|].
  apply (average_confidence_in_unit_interval seg ans "https://example.com/policy.pdf"
           (Some 2500%Q)); [exact Hc|reflexivity].
Defined.

(** ** HomePage *)

Module HomePageFacts.
Import DocumentForm HomePage.

Lemma run_invariant (is_url : string -> bool) (P : Page -> Prop) :
  P initial -> (forall p ev, P p -> P (handle is_url p ev)) ->
  forall evs, P (run is_url evs).
Proof.
  intros Hi Hs evs. unfold run. generalize initial Hi.
  induction evs as [|ev evs IH]; intros p Hp; simpl; [done|].
  apply IH, Hs, Hp.
Qed.

Lemma mutationFn_sent (tok : string) (r : HackRXRequest) :
  (exists e, mutationFn tok r = BearerTokenRequired e) \/
  (mutationFn tok r = Sent r /\ tok <> EmptyString).
Proof.
  unfold mutationFn. destruct (String.eqb tok EmptyString) eqn:E.
  - left. by eexists.
  - right. split; [done|]. by apply String.eqb_neq.
Qed.

Lemma handle_exclusive (is_url : string -> bool) (p : Page) (ev : Event) :
  results p = None \/ error p = None ->
  results (handle is_url p ev) = None \/ error (handle is_url p ev) = None.
Proof.
  intros H. destruct ev as [s| | |fd|i reply|]; simpl; try tauto.
  - destruct (formSchema is_url fd); [|done]. unfold mutate.
    destruct (mutationFn (bearerToken p) (handleFormSubmit fd)); simpl; tauto.
  - destruct (inflight p !! i) as [[e|]|]; [| destruct reply |]; simpl; tauto.
Qed.

Definition sent_ok (is_url : string -> bool) (x : string * HackRXRequest) : Prop :=
  x.1 <> EmptyString /\ request_bounds is_url x.2.

Lemma handle_sent_ok (is_url : string -> bool) (p : Page) (ev : Event) :
  Forall (sent_ok is_url) (sent p) -> Forall (sent_ok is_url) (sent (handle is_url p ev)).
Proof.
  intros H. destruct ev as [s| | |fd|i reply|]; simpl; try done.
  - destruct (formSchema is_url fd) eqn:Hf; [|done]. unfold mutate.
    destruct (mutationFn_sent (bearerToken p) (handleFormSubmit fd))
      as [[e ->]|[-> Htok]]; simpl; [done|].
    apply Forall_app_2; [done|]. constructor; [|constructor].
    split; [done|]. by apply DocumentFormFacts.formSchema_bounds.
  - destruct (inflight p !! i) as [[e|]|]; [| destruct reply |]; simpl; done.
Qed.



End HomePageFacts.

(** The home page never shows a result and an error at once: [onSuccess]
    clears the error, [onError] clears the results, "New Query" clears
    both, and the other events leave them as they are. *)
Theorem home_never_results_and_error (is_url : string -> bool)
    (evs : list HomePage.Event) :
  ~ (is_Some (HomePage.results (HomePage.run is_url evs))
     /\ is_Some (HomePage.error (HomePage.run is_url evs))).
Proof.
  assert (H : HomePage.results (HomePage.run is_url evs) = None
              \/ HomePage.error (HomePage.run is_url evs) = None).
  { apply HomePageFacts.run_invariant; [by left|].
    intros p ev. apply HomePageFacts.handle_exclusive. }
  intros [[r Hr] [e He]]. destruct H as [H|H]; congruence.
Qed.

(** Every request the home page posts to the backend carries a non-empty
    bearer token and passed the form schema: a document URL and between 1
    and 10 questions of 1 to 1000 characters. *)
Theorem home_posted_requests_valid (is_url : string -> bool)
    (evs : list HomePage.Event) :
  Forall (fun x => x.1 <> EmptyString /\ DocumentForm.request_bounds is_url x.2)
    (HomePage.sent (HomePage.run is_url evs)).
Proof.
  apply (HomePageFacts.run_invariant is_url
           (fun p => Forall (HomePageFacts.sent_ok is_url) (HomePage.sent p))).
  - constructor.
  - intros p ev. apply HomePageFacts.handle_sent_ok.
Qed.



(** ** run-dev.sh *)

Module RunDevFacts.
Import RunDev.

Definition base_cmd (c : Cmd) : Prop :=
  c = ComposeUpPostgres \/ c = PgIsReady \/ c = Sleep1.

Definition menu_cmd_of (s : string) : option Cmd :=
  if String.eqb s "1" then Some ComposeUpAll
  else if String.eqb s "2" then Some ComposeUpBackend
  else if String.eqb s "4" then Some ComposeDown
  else None.

Lemma wait_pg_base (env : Env) (fuel k : nat) :
  Forall base_cmd (wait_pg env fuel k).1.
Proof.
  revert k. induction fuel as [|fuel IH]; intros k; simpl; [constructor|].
  destruct (ready_probe env k); [repeat constructor; unfold base_cmd; tauto|].
  destruct (cmd_ok env Sleep1).
  - specialize (IH (S k)). destruct (wait_pg env fuel (S k)) as [cs r].
    simpl in *. constructor; [unfold base_cmd; tauto|].
    constructor; [unfold base_cmd; tauto|]. exact IH.
  - repeat constructor; unfold base_cmd; tauto.
Qed.

Lemma wait_pg_ready (env : Env) (fuel k : nat) (cs : list Cmd) :
  wait_pg env fuel k = (cs, PgReady) ->
  exists m, m < fuel /\ ready_probe env (k + m) = true
    /\ (forall j, j < m -> ready_probe env (k + j) = false)
    /\ (0 < m -> cmd_ok env Sleep1 = true)
    /\ cs = concat (replicate m [PgIsReady; Sleep1]) ++ [PgIsReady].
Proof.
  revert k cs. induction fuel as [|fuel IH]; intros k cs H; simpl in H; [discriminate|].
  destruct (ready_probe env k) eqn:Hk.
  - injection H as <-. exists 0. rewrite Nat.add_0_r.
    repeat split; [lia|done|lia|lia].
  - destruct (cmd_ok env Sleep1) eqn:Hs; [|discriminate].
    destruct (wait_pg env fuel (S k)) as [cs' r] eqn:Hw.
    injection H as <- ->.
    destruct (IH (S k) cs' Hw) as (m & Hm & Hr & Hb & _ & ->).
    exists (S m). split; [lia|]. split; [by rewrite Nat.add_succ_r|].
    split; [|split; [done|reflexivity]].
    intros [|j] Hj; [by rewrite Nat.add_0_r|].
    rewrite Nat.add_succ_r. apply Hb. lia.
Qed.

Lemma wait_pg_not_ready (env : Env) (fuel k : nat) :
  cmd_ok env Sleep1 = true ->
  (forall j, j < fuel -> ready_probe env (k + j) = false) ->
  wait_pg env fuel k = (concat (replicate fuel [PgIsReady; Sleep1]), NotYetReady).
Proof.
  intros Hs. revert k. induction fuel as [|fuel IH]; intros k Hr; simpl; [done|].
  rewrite <- (Nat.add_0_r k), Hr by lia. rewrite Nat.add_0_r, Hs.
  rewrite IH; [done|]. intros j Hj. replace (S k + j) with (k + S j) by lia.
  apply Hr. lia.
Qed.

Lemma run_dev_cases (env : Env) (fuel : nat) (choice : option string)
    (cs : list Cmd) (o : Outcome) :
  run_dev env fuel choice = (cs, o) ->
  (Forall base_cmd cs
   /\ (o = ExitOk -> exists probes, wait_pg env fuel 0 = (probes, PgReady)
         /\ choice = Some "3" /\ cs = ComposeUpPostgres :: probes
         /\ env_file env = true /\ has_docker env = true /\ has_compose env = true))
  \/ (exists s c probes, choice = Some s /\ menu_cmd_of s = Some c
       /\ wait_pg env fuel 0 = (probes, PgReady)
       /\ cs = ComposeUpPostgres :: probes ++ [c]
       /\ o = (if cmd_ok env c then ExitOk else ExitFail)
       /\ env_file env = true /\ has_docker env = true /\ has_compose env = true).
Proof.
  unfold run_dev. intros H.
  destruct (env_file env) eqn:Hf; simpl in H;
    [|injection H as <- <-; left; split; [constructor|discriminate]].
  destruct (has_docker env) eqn:Hd; simpl in H;
    [|injection H as <- <-; left; split; [constructor|discriminate]].
  destruct (has_compose env) eqn:Hc; simpl in H;
    [|injection H as <- <-; left; split; [constructor|discriminate]].
  destruct (cmd_ok env ComposeUpPostgres) eqn:Hu; simpl in H;
    [|injection H as <- <-; left; split;
      [repeat constructor; unfold base_cmd; tauto|discriminate]].
  pose proof (wait_pg_base env fuel 0) as Hb.
  destruct (wait_pg env fuel 0) as [probes w] eqn:Hw. simpl in Hb.
  assert (Hpre : Forall base_cmd (ComposeUpPostgres :: probes))
    by (constructor; [unfold base_cmd; tauto|exact Hb]).
  destruct w;
    [|injection H as <- <-; left; split; [exact Hpre|discriminate]
     |injection H as <- <-; left; split; [exact Hpre|discriminate]].
  destruct choice as [s|];
    [|injection H as <- <-; left; split; [exact Hpre|discriminate]].
  destruct s as [|a s];
    [injection H as <- <-; left; split; [exact Hpre|discriminate]|].
  destruct a as [[] [] [] [] [] [] [] []];
    try (injection H as <- <-; left; split; [exact Hpre|discriminate]);
    (destruct s;
     [|injection H as <- <-; left; split; [exact Hpre|discriminate]]);
    injection H as <- <-;
    first
      [ left; split; [exact Hpre|intros _; exists probes; done]
      | right; eexists _, _, probes; done ].
Qed.

End RunDevFacts.

(** Without [.env], [docker] or [docker-compose] the script runs no
    command and exits with status 1. *)
Theorem run_dev_missing_prerequisite (env : RunDev.Env) (fuel : nat)
    (choice : option string) :
  RunDev.env_file env && RunDev.has_docker env && RunDev.has_compose env = false ->
  RunDev.run_dev env fuel choice = ([], RunDev.ExitFail).
Proof.
  unfold RunDev.run_dev.
  destruct (RunDev.env_file env), (RunDev.has_docker env), (RunDev.has_compose env);
    simpl; done.
Qed.

Lemma run_dev_missing_prerequisite_witness :
  let env := RunDev.mkEnv true false true (fun _ => true) (fun _ => true) in
  (RunDev.env_file env && RunDev.has_docker env && RunDev.has_compose env = false)
  /\ RunDev.run_dev env 5 (Some "1") = ([], RunDev.ExitFail).
Proof.
  intros env. split; [reflexivity|].
  apply (run_dev_missing_prerequisite env 5 (Some "1")). reflexivity.
Defined.

(** The menu commands ([docker-compose up -d], [up -d backend], [down])
    run only after PostgreSQL was started and a [pg_isready] probe
    succeeded: the trace is [up -d postgres], [m] failed probes each
    followed by [sleep 1], the successful probe, then the one command
    selected by the answer "1", "2" or "4", whose status is the script's. *)
Theorem run_dev_menu_command_after_ready (env : RunDev.Env) (fuel : nat)
    (choice : option string) (cs : list RunDev.Cmd) (o : RunDev.Outcome)
    (c : RunDev.Cmd) :
  RunDev.run_dev env fuel choice = (cs, o) ->
  ~ RunDevFacts.base_cmd c -> c ∈ cs ->
  exists s m, choice = Some s /\ RunDevFacts.menu_cmd_of s = Some c
    /\ m < fuel /\ RunDev.ready_probe env m = true
    /\ (forall j, j < m -> RunDev.ready_probe env j = false)
    /\ cs = RunDev.ComposeUpPostgres
             :: concat (replicate m [RunDev.PgIsReady; RunDev.Sleep1])
             ++ [RunDev.PgIsReady; c]
    /\ o = (if RunDev.cmd_ok env c then RunDev.ExitOk else RunDev.ExitFail).
Proof.
  intros H Hc Hin.
  destruct (RunDevFacts.run_dev_cases env fuel choice cs o H)
    as [[Hb _] | (s & c' & probes & Hch & Hm & Hw & -> & Ho & _)].
  - exfalso. apply Hc. by apply (Forall_forall _ _) with (x := c) in Hb.
  - pose proof (RunDevFacts.wait_pg_base env fuel 0) as Hpb. rewrite Hw in Hpb.
    simpl in Hpb.
    assert (c = c') as <-.
    { apply elem_of_cons in Hin as [->|Hin]; [exfalso; apply Hc; by left|].
      apply elem_of_app in Hin as [Hin|Hin].
      - exfalso. apply Hc. by apply (Forall_forall _ _) with (x := c) in Hpb.
      - by apply list_elem_of_singleton in Hin. }
    destruct (RunDevFacts.wait_pg_ready env fuel 0 probes Hw)
      as (m & Hlt & Hr & Hnr & _ & ->).
    exists s, m. repeat split; try done.
    by rewrite <- app_assoc.
Qed.

Lemma run_dev_menu_command_after_ready_witness :
  let env := RunDev.mkEnv true true true (fun _ => true) (fun k => k =? 2) in
  RunDev.run_dev env 5 (Some "4")
    = ([RunDev.ComposeUpPostgres; RunDev.PgIsReady; RunDev.Sleep1; RunDev.PgIsReady;
        RunDev.Sleep1; RunDev.PgIsReady; RunDev.ComposeDown], RunDev.ExitOk)
  /\ exists s m, Some "4" = Some s /\ RunDevFacts.menu_cmd_of s = Some RunDev.ComposeDown
    /\ m < 5 /\ RunDev.ready_probe env m = true
    /\ (forall j, j < m -> RunDev.ready_probe env j = false)
    /\ [RunDev.ComposeUpPostgres; RunDev.PgIsReady; RunDev.Sleep1; RunDev.PgIsReady;
        RunDev.Sleep1; RunDev.PgIsReady; RunDev.ComposeDown]
       = RunDev.ComposeUpPostgres
           :: concat (replicate m [RunDev.PgIsReady; RunDev.Sleep1])
           ++ [RunDev.PgIsReady; RunDev.ComposeDown]
    /\ RunDev.ExitOk = (if RunDev.cmd_ok env RunDev.ComposeDown
                        then RunDev.ExitOk else RunDev.ExitFail).
Proof.
  intros env. split; [reflexivity|].
  apply (run_dev_menu_command_after_ready env 5 (Some "4") _ _ RunDev.ComposeDown).
  - reflexivity.
  - unfold RunDevFacts.base_cmd. intros [H|[H|H]]; discriminate.
  - right. right. right. right. right. right. left.
Defined.

(** An answer other than "1" to "4" (or a closed input) never lets the
    script succeed, and it then runs nothing beyond starting PostgreSQL
    and waiting for it: no service is started or stopped. *)
Theorem run_dev_invalid_choice (env : RunDev.Env) (fuel : nat)
    (choice : option string) :
  (forall s, choice = Some s -> s <> "1" /\ s <> "2" /\ s <> "3" /\ s <> "4") ->
  (RunDev.run_dev env fuel choice).2 <> RunDev.ExitOk
  /\ Forall RunDevFacts.base_cmd (RunDev.run_dev env fuel choice).1.
Proof.
  intros Hs.
  destruct (RunDev.run_dev env fuel choice) as [cs o] eqn:H. simpl.
  destruct (RunDevFacts.run_dev_cases env fuel choice cs o H)
    as [[Hb Hok] | (s & c & probes & Hch & Hm & _)].
  - split; [|exact Hb]. intros ->. destruct (Hok eq_refl) as (_ & _ & Hch & _).
    destruct (Hs "3" Hch) as (_ & _ & H3 & _). done.
  - exfalso. destruct (Hs s Hch) as (H1 & H2 & _ & H4).
    unfold RunDevFacts.menu_cmd_of in Hm.
    apply String.eqb_neq in H1, H2, H4. rewrite H1, H2, H4 in Hm. discriminate.
Qed.

Lemma run_dev_invalid_choice_witness :
  let env := RunDev.mkEnv true true true (fun _ => true) (fun k => k =? 1) in
  (forall s, Some "5" = Some s -> s <> "1" /\ s <> "2" /\ s <> "3" /\ s <> "4")
  /\ (RunDev.run_dev env 3 (Some "5")).2 <> RunDev.ExitOk
  /\ Forall RunDevFacts.base_cmd (RunDev.run_dev env 3 (Some "5")).1.
Proof.
  intros env.
  assert (Hs : forall s, Some "5" = Some s -> s <> "1" /\ s <> "2" /\ s <> "3" /\ s <> "4").
  { intros s Hs. injection Hs as <-. repeat split; discriminate. }
  split; [exact Hs|]. apply (run_dev_invalid_choice env 3 (Some "5")). exact Hs.
Defined.

(** The script exits with status 0 only when all its prerequisites are
    present, PostgreSQL was started, and a [pg_isready] probe succeeded
    after [m] failed ones. *)
Theorem run_dev_success_requires_ready (env : RunDev.Env) (fuel : nat)
    (choice : option string) :
  (RunDev.run_dev env fuel choice).2 = RunDev.ExitOk ->
  RunDev.env_file env = true /\ RunDev.has_docker env = true
  /\ RunDev.has_compose env = true
  /\ exists m, m < fuel /\ RunDev.ready_probe env m = true
     /\ (forall j, j < m -> RunDev.ready_probe env j = false)
     /\ (0 < m -> RunDev.cmd_ok env RunDev.Sleep1 = true)
     /\ exists rest, (RunDev.run_dev env fuel choice).1
          = RunDev.ComposeUpPostgres
              :: concat (replicate m [RunDev.PgIsReady; RunDev.Sleep1])
              ++ RunDev.PgIsReady :: rest.
Proof.
  destruct (RunDev.run_dev env fuel choice) as [cs o] eqn:H. simpl. intros ->.
  destruct (RunDevFacts.run_dev_cases env fuel choice cs RunDev.ExitOk H)
    as [[_ Hok] | (s & c & probes & _ & _ & Hw & -> & _ & Hf & Hd & Hc)].
  - destruct (Hok eq_refl) as (probes & Hw & _ & -> & Hf & Hd & Hc).
    repeat split; try done.
    destruct (RunDevFacts.wait_pg_ready env fuel 0 probes Hw)
      as (m & Hlt & Hr & Hnr & Hsl & ->).
    exists m. repeat split; try done. exists []. done.
  - repeat split; try done.
    destruct (RunDevFacts.wait_pg_ready env fuel 0 probes Hw)
      as (m & Hlt & Hr & Hnr & Hsl & ->).
    exists m. repeat split; try done. exists [c]. by rewrite <- app_assoc.
Qed.

Lemma run_dev_success_requires_ready_witness :
  let env := RunDev.mkEnv true true true (fun _ => true) (fun k => k =? 1) in
  (RunDev.run_dev env 3 (Some "3")).2 = RunDev.ExitOk
  /\ RunDev.env_file env = true /\ RunDev.has_docker env = true
  /\ RunDev.has_compose env = true
  /\ exists m, m < 3 /\ RunDev.ready_probe env m = true
     /\ (forall j, j < m -> RunDev.ready_probe env j = false)
     /\ (0 < m -> RunDev.cmd_ok env RunDev.Sleep1 = true)
     /\ exists rest, (RunDev.run_dev env 3 (Some "3")).1
          = RunDev.ComposeUpPostgres
              :: concat (replicate m [RunDev.PgIsReady; RunDev.Sleep1])
              ++ RunDev.PgIsReady :: rest.
Proof.
  intros env. split; [reflexivity|].
  apply (run_dev_success_requires_ready env 3 (Some "3")). reflexivity.
Defined.

(** The wait for PostgreSQL has no time limit: as long as [pg_isready]
    fails and [sleep 1] succeeds, the script keeps probing and sleeping and
    has run nothing else after starting PostgreSQL. *)
Theorem run_dev_waits_without_limit (env : RunDev.Env) (fuel : nat)
    (choice : option string) :
  RunDev.env_file env = true -> RunDev.has_docker env = true ->
  RunDev.has_compose env = true ->
  RunDev.cmd_ok env RunDev.ComposeUpPostgres = true ->
  RunDev.cmd_ok env RunDev.Sleep1 = true ->
  (forall j, j < fuel -> RunDev.ready_probe env j = false) ->
  RunDev.run_dev env fuel choice
  = (RunDev.ComposeUpPostgres :: concat (replicate fuel [RunDev.PgIsReady; RunDev.Sleep1]),
     RunDev.StillWaiting).
Proof.
  intros Hf Hd Hc Hu Hs Hr. unfold RunDev.run_dev.
  rewrite Hf, Hd, Hc, Hu. simpl.
  rewrite (RunDevFacts.wait_pg_not_ready env fuel 0 Hs); [done|].
  intros j Hj. apply Hr, Hj.
Qed.

Lemma run_dev_waits_without_limit_witness :
  let env := RunDev.mkEnv true true true (fun _ => true) (fun _ => false) in
  RunDev.run_dev env 3 None
  = (RunDev.ComposeUpPostgres :: concat (replicate 3 [RunDev.PgIsReady; RunDev.Sleep1]),
     RunDev.StillWaiting).
Proof.
  intros env.
  apply (run_dev_waits_without_limit env 3 None); try reflexivity.
Defined.
